(** * RSA_implementation.py: a shallow embedding and its verification

    The Python module implements textbook RSA on small primes: the extended
    Euclidean algorithm, a modular inverse built on it, trial-division
    primality, the nth-prime search, key generation and the two transforms.

    Python integers are unbounded, so they are embedded as [Z]; [Z.div] and
    [Z.modulo] are floor division and its remainder, as Python's [//] and
    [%] are.  Exceptions are embedded in the [result] type, the absent value
    [None] as [option]. *)

From Equations Require Import Equations.
From Stdlib Require Import ZArith List Lia Bool.
From Stdlib Require Import Zmod.ZmodInv.
Import ListNotations.

Local Open Scope Z_scope.

(** ** The Python run time the module relies on *)

Module Py.

(** The exceptions the module can meet. *)
Inductive exn : Set :=
| AssertionError
| TypeError
| ZeroDivisionError
| ValueError.

(** The outcome of a call: a value, or an exception that aborts it. *)
Inductive result (A : Type) : Type :=
| Ok (a : A)
| Raise (e : exn).

Arguments Ok {A} a.
Arguments Raise {A} e.

Definition bind {A B : Type} (c : result A) (k : A -> result B) : result B :=
  match c with
  | Ok a => k a
  | Raise e => Raise e
  end.

(** [x % n] on integers: floor remainder, [ZeroDivisionError] for [n = 0]. *)
Definition mod_ (x n : Z) : result Z :=
  if n =? 0 then Raise ZeroDivisionError else Ok (x mod n).

(** The built-in [pow(base, exp, mod)] on integers.  A zero modulus raises
    [ValueError]; a negative exponent takes the inverse of the base, and
    raises [ValueError] when the base is not invertible. *)
Definition pow (base exp modulus : Z) : result Z :=
  if modulus =? 0 then Raise ValueError
  else if 0 <=? exp then Ok (base ^ exp mod modulus)
  else if Z.gcd base modulus =? 1
       then Ok (Z.invmod base modulus ^ (- exp) mod modulus)
       else Raise ValueError.

(** [range(start, stop, step)] for a positive step. *)
Definition range3 (start stop step : Z) : list Z :=
  map (fun k => start + Z.of_nat k * step)
      (seq 0 (Z.to_nat ((stop - start + step - 1) / step))).

(** [range(start, stop)]. *)
Definition range (start stop : Z) : list Z := range3 start stop 1.

(** [math.ceil(math.sqrt(n))] for [0 <= n].  The source computes the root
    in double precision; the embedding takes the exact integer ceiling of
    the real square root.  The two agree for [n] up to [2 ^ 52], far beyond
    the primes used here.  Above, the rounded root can fall short of the
    real one (at [2 ^ 52 + 1] already), and from [2 ^ 1024] on [math.sqrt]
    raises [OverflowError]: what is stated of [is_prime] and its callers is
    stated on bounded ranges. *)
Definition ceil_sqrt (n : Z) : Z :=
  if Z.sqrt n * Z.sqrt n =? n then Z.sqrt n else Z.sqrt n + 1.

End Py.

Import Py.

Notation "x <- c ;; k" := (Py.bind c (fun x => k))
  (at level 61, c at next level, right associativity).

(** ** The functions of the module *)

(** The [while y != 0] loop of [extended_gcd], with both assertions of its
    body.  [a] and [b] are the arguments of the call, the other six the
    loop's variables. *)
Equations? extended_gcd_loop (a b x y px qx py qy : Z) : result (Z * Z * Z)
  by wf (Z.abs_nat y) lt :=
  extended_gcd_loop a b x y px qx py qy with Z.eq_dec y 0 := {
    | left _ => Ok (x, px, qx)
    | right _ with (x =? px * a + qx * b) && (y =? py * a + qy * b) := {
      | false => Raise AssertionError
      | true => extended_gcd_loop a b y (x mod y) py qy
                  (px - (x / y) * py) (qx - (x / y) * qy) } }.
Proof.
  pose proof (Z.mod_bound_or x y ltac:(assumption)). lia.
Qed.

Definition extended_gcd (a b : Z) : result (Z * Z * Z) :=
  extended_gcd_loop a b a b 1 0 0 1.

Definition modular_inverse (a n : Z) : result Z :=
  t1 <- extended_gcd a n ;;
  let coefficient_p := snd (fst t1) in
  t2 <- extended_gcd a n ;;
  let coefficient_q := snd t2 in
  r <- Py.mod_ coefficient_p n ;;
  Py.mod_ (r + n) n.

(** The [for] loop of [is_prime] over the candidates that are left. *)
Fixpoint is_prime_scan (n : Z) (candidates : list Z) : bool :=
  match candidates with
  | [] => true
  | i :: rest => if n mod i =? 0 then false else is_prime_scan n rest
  end.

Definition is_prime (n : Z) : bool :=
  if n <? 2 then false
  else if n =? 2 then true
  else if n mod 2 =? 0 then false
  else is_prime_scan n (Py.range3 3 (Py.ceil_sqrt n + 1) 2).

(** The [while count < n] loop of [get_prime_number].  Nothing in the source
    bounds the number of its iterations, so the embedding counts them down
    from [fuel] and answers [None] when they run out. *)
Fixpoint get_prime_number_loop (fuel : nat) (n prime_number count : Z)
  : option Z :=
  match fuel with
  | O => None
  | S fuel' =>
      if count <? n then
        let prime_number := prime_number + 1 in
        if is_prime prime_number
        then get_prime_number_loop fuel' n prime_number (count + 1)
        else get_prime_number_loop fuel' n prime_number count
      else Some prime_number
  end.

Definition get_prime_number (fuel : nat) (n : Z) : option Z :=
  get_prime_number_loop fuel n 2 1.

(** [generate_key_variables], with the two draws of [random.randint(60, 150)]
    passed in. *)
Definition generate_key_variables (fuel : nat) (random_number random_number_b : Z)
  : option (Z * Z) :=
  match get_prime_number fuel random_number with
  | None => None
  | Some p =>
      match get_prime_number fuel random_number_b with
      | None => None
      | Some q => Some (p, q)
      end
  end.

Definition compute_totient (p q : Z) : Z := (p - 1) * (q - 1).

(** The [for] loop of [choose_e] over the candidates that are left; falling
    off its end returns [None]. *)
Fixpoint choose_e_scan (my_totient : Z) (candidates : list Z)
  : result (option Z) :=
  match candidates with
  | [] => Ok None
  | i :: rest =>
      t <- extended_gcd i my_totient ;;
      if fst (fst t) =? 1 then Ok (Some i) else choose_e_scan my_totient rest
  end.

Definition choose_e (p q : Z) : result (option Z) :=
  let my_totient := compute_totient p q in
  choose_e_scan my_totient (Py.range 2 (my_totient - 1)).

Definition choose_d (e p q : Z) : result Z :=
  let my_totient := compute_totient p q in
  modular_inverse e my_totient.

(** The class [communication_party]: its two fields and its four methods,
    each a function from the instance before the call to the outcome and
    the instance after it. *)
Module communication_party.

Record t : Set := Build { p : Z; q : Z }.

Definition encrypt (message e n : Z) (self : t) : result Z * t :=
  (Py.pow message e n, self).

Definition decrypt (cipher d n : Z) (self : t) : result Z * t :=
  (Py.pow cipher d n, self).

Definition get_public_key (e n : Z) (self : t) : result (Z * Z) * t :=
  (Ok (e, n), self).

Definition get_private_key (d n : Z) (self : t) : result (Z * Z) * t :=
  (Ok (d, n), self).

(** A method neither reads nor writes the fields of the instance: on any
    two instances it gives the same outcome, and the instance it was
    called on is the same after the call. *)
Definition frame {A : Type} (method : t -> result A * t) : Prop :=
  forall self other : t,
    fst (method self) = fst (method other) /\ snd (method self) = self.

End communication_party.

(** The computation of [main] on the primes [p], [q] and the message that
    was read: the keys are chosen, the message is encrypted and the cipher
    decrypted by the instance [party].  When [choose_e] returned [None],
    [choose_d] raises: the first product in the loop of [extended_gcd],
    [px * a], raises [TypeError], and when the totient is zero, so that the
    loop is not entered, the remainder by zero in [modular_inverse] raises
    instead. *)
Definition round_trip (party : communication_party.t) (p q message : Z)
  : result Z :=
  let n := p * q in
  e <- choose_e p q ;;
  match e with
  | None =>
      if compute_totient p q =? 0 then Raise ZeroDivisionError
      else Raise TypeError
  | Some e =>
      d <- choose_d e p q ;;
      cipher <- fst (communication_party.encrypt message e n party) ;;
      fst (communication_party.decrypt cipher d n party)
  end.

(** [recursive_euclidean], with the number of frames the interpreter still
    allows: every call takes one, and a call that finds none left is the
    [RecursionError] of the source, embedded as [None]. *)
Fixpoint recursive_euclidean (depth : nat) (a b : Z) : option Z :=
  match depth with
  | O => None
  | S depth' =>
      if b =? 0 then Some a else recursive_euclidean depth' b (a mod b)
  end.

(** The number of primes up to [m], counted with [is_prime]: what the
    variable [count] of [get_prime_number] holds when [prime_number] is
    [m]. *)
Definition count_primes (m : Z) : Z :=
  Z.of_nat (length (filter is_prime (Py.range 2 (m + 1)))).

(** ** Primality as the specification words it *)

(** Trial division as a definition of primality: [n] is at least 2 and no
    integer from 2 up to [n - 1] divides it.  This follows the words of the
    specification, not the source; [is_prime] is compared with it below. *)
Definition prime_by_trial_division (n : Z) : bool :=
  (2 <=? n) && forallb (fun d => negb (n mod d =? 0)) (Py.range 2 n).

(** ** The examples of the docstrings that the code meets *)

Example extended_gcd_10_3 : extended_gcd 10 3 = Ok (1, 1, -3).
Proof. reflexivity. Qed.

Example modular_inverse_10_3 : modular_inverse 10 3 = Ok 1.
Proof. reflexivity. Qed.

Example modular_inverse_3_10 : modular_inverse 3 10 = Ok 7.
Proof. reflexivity. Qed.

Example get_prime_number_1_to_5 :
  map (get_prime_number 11) [1; 2; 3; 4; 5] = map Some [2; 3; 5; 7; 11].
Proof. reflexivity. Qed.

Example compute_totient_11_17 : compute_totient 11 17 = 160.
Proof. reflexivity. Qed.

(** ** The extended Euclidean algorithm *)

Section ExtendedGcd.

Variables a b : Z.

(** What the loop returns when it is entered with both invariants true. *)
Lemma extended_gcd_loop_spec (x y px qx py qy : Z) :
  x = px * a + qx * b ->
  y = py * a + qy * b ->
  exists g u v,
    extended_gcd_loop a b x y px qx py qy = Ok (g, u, v)
    /\ g = u * a + v * b
    /\ Z.abs g = Z.gcd x y
    /\ (y = 0 -> (g, u, v) = (x, px, qx))
    /\ (0 < y -> 0 < g)
    /\ (y < 0 -> g < 0).
Proof.
  funelim (extended_gcd_loop a b x y px qx py qy); intros Hx Hy.
  - exists x, px, qx. subst y.
    repeat split; try lia. now rewrite Z.gcd_0_r.
  - clear Heq Heq0 Heqcall.
    pose proof (Z.mod_bound_or x y n) as Hr.
    pose proof (Z.div_mod x y n) as Hd.
    destruct (H Hy) as (g & u & v & -> & Hg & Habs & Hz & Hp & Hn);
      [ nia | ].
    exists g, u, v. repeat split; trivial.
    + rewrite Habs, Z.gcd_comm. apply Z.gcd_mod_l.
    + intros; lia.
    + intros Hy0.
      destruct (Z.eq_dec (x mod y) 0) as [E | E].
      * specialize (Hz E). inversion Hz; subst; lia.
      * apply Hp. lia.
    + intros Hy0.
      destruct (Z.eq_dec (x mod y) 0) as [E | E].
      * specialize (Hz E). inversion Hz; subst; lia.
      * apply Hn. lia.
  - exfalso. apply andb_false_iff in Heq.
    destruct Heq as [E | E]; apply Z.eqb_neq in E; lia.
Qed.

End ExtendedGcd.

(** What [extended_gcd] returns on any two integers: the Bezout identity,
    the gcd up to its sign, and the sign, which is that of [b]. *)
Lemma extended_gcd_spec (a b : Z) :
  exists g x y,
    extended_gcd a b = Ok (g, x, y)
    /\ g = x * a + y * b
    /\ Z.abs g = Z.gcd a b
    /\ (b = 0 -> (g, x, y) = (a, 1, 0))
    /\ (0 < b -> g = Z.gcd a b)
    /\ (b < 0 -> g = - Z.gcd a b).
Proof.
  destruct (extended_gcd_loop_spec a b a b 1 0 0 1)
    as (g & x & y & E & Hg & Habs & Hz & Hp & Hn); try lia.
  exists g, x, y. repeat split; trivial.
  - intros Hb. specialize (Hp Hb). lia.
  - intros Hb. specialize (Hn Hb). lia.
Qed.

(** With a positive second argument the first component is the gcd. *)
Lemma extended_gcd_pos (a b : Z) :
  0 < b ->
  exists x y, extended_gcd a b = Ok (Z.gcd a b, x, y)
              /\ x * a + y * b = Z.gcd a b.
Proof.
  intros Hb.
  destruct (extended_gcd_spec a b) as (g & x & y & E & Hg & _ & _ & Hp & _).
  exists x, y. rewrite E, <- (Hp Hb). split; congruence.
Qed.

(** C7: [extended_gcd] is total over the integers: on every pair of
    integers, negative ones and [b = 0] included, its loop ends, neither
    assertion fails, and it returns a triple. *)
Theorem extended_gcd_total (a b : Z) :
  exists g x y, extended_gcd a b = Ok (g, x, y).
Proof.
  destruct (extended_gcd_spec a b) as (g & x & y & E & _).
  now exists g, x, y.
Qed.

(** C2, as the code has it: on all integers [extended_gcd a b] returns
    [(g, x, y)] with [g = x * a + y * b] and [|g| = gcd (|a|, |b|)]; [g] is
    that gcd when [b] is positive and its opposite when [b] is negative, and
    for [b = 0] the triple is [(a, 1, 0)], so that [g] is [a] itself. *)
Theorem extended_gcd_bezout_gcd_up_to_sign (a b : Z) :
  exists g x y,
    extended_gcd a b = Ok (g, x, y)
    /\ g = x * a + y * b
    /\ Z.abs g = Z.gcd (Z.abs a) (Z.abs b)
    /\ (b = 0 -> (g, x, y) = (a, 1, 0))
    /\ (0 < b -> g = Z.gcd (Z.abs a) (Z.abs b))
    /\ (b < 0 -> g = - Z.gcd (Z.abs a) (Z.abs b)).
Proof.
  rewrite Z.gcd_abs_l, Z.gcd_abs_r. apply extended_gcd_spec.
Qed.

(** C2 fails as stated: with a negative [a] and [b = 0], and with a negative
    [b], the first component is the opposite of the gcd of the absolute
    values. *)
Lemma extended_gcd_negative_counterexample :
  ~ (forall a b : Z, ~ (a = 0 /\ b = 0) ->
       exists g x y,
         extended_gcd a b = Ok (g, x, y)
         /\ g = x * a + y * b
         /\ g = Z.gcd (Z.abs a) (Z.abs b)
         /\ (b = 0 -> (g, x, y) = (a, 1, 0)))
  /\ extended_gcd (-4) 0 = Ok (-4, 1, 0)
  /\ Z.gcd (Z.abs (-4)) (Z.abs 0) = 4
  /\ extended_gcd 4 (-6) = Ok (-2, 1, 1)
  /\ Z.gcd (Z.abs 4) (Z.abs (-6)) = 2.
Proof.
  split; [ | repeat split ].
  intros H.
  destruct (H (-4) 0) as (g & x & y & E & _ & Hg & _); [ lia | ].
  vm_compute in E, Hg. congruence.
Qed.

(** ** The modular inverse *)

(** [modular_inverse] by cases on the modulus: the remainder by zero raises,
    and any other modulus gives the first Bezout coefficient reduced by it. *)
Lemma modular_inverse_cases (a n : Z) :
  exists g x y,
    extended_gcd a n = Ok (g, x, y)
    /\ g = x * a + y * n
    /\ Z.abs g = Z.gcd a n
    /\ (0 < n -> g = Z.gcd a n)
    /\ (n = 0 -> modular_inverse a n = Raise ZeroDivisionError)
    /\ (n <> 0 -> modular_inverse a n = Ok (x mod n)).
Proof.
  destruct (extended_gcd_spec a n) as (g & x & y & E & Hg & Habs & _ & Hp & _).
  exists g, x, y. repeat split; trivial; intros Hn.
  - unfold modular_inverse. rewrite E. cbn. unfold Py.mod_.
    subst n. reflexivity.
  - unfold modular_inverse. rewrite E. cbn. unfold Py.mod_.
    destruct (Z.eqb_spec n 0) as [ | _ ]; [ contradiction | ]. cbn.
    destruct (Z.eqb_spec n 0) as [ | _ ]; [ contradiction | ].
    f_equal.
    rewrite <- (Z.mul_1_l n) at 2. rewrite Z.mod_add by trivial.
    now rewrite Z.mod_mod.
Qed.

(** A product that is 1 modulo [n] makes its factors coprime to [n]. *)
Lemma mod_1_coprime (a d n : Z) : (a * d) mod n = 1 -> Z.gcd a n = 1.
Proof.
  intros H.
  destruct (Z.eq_dec n 0) as [-> | Hn].
  - rewrite Z.mod_0_r in H. rewrite Z.gcd_0_r.
    destruct (Z.eq_mul_1 a d H); lia.
  - pose proof (Z.div_mod (a * d) n Hn) as Hd. rewrite H in Hd.
    apply Z.bezout_1_gcd. exists d, (- ((a * d) / n)). lia.
Qed.

(** The inverse of [a] modulo [n], for coprime [a] and [n] above 1. *)
Lemma modular_inverse_coprime (a n : Z) :
  Z.gcd a n = 1 ->
  1 < n ->
  exists d, modular_inverse a n = Ok d /\ 0 <= d < n /\ (a * d) mod n = 1.
Proof.
  intros Hco Hn.
  destruct (modular_inverse_cases a n)
    as (g & x & y & _ & Hg & _ & Hp & _ & Hnz).
  exists (x mod n). split; [ apply Hnz; lia | ].
  split; [ apply Z.mod_pos_bound; lia | ].
  rewrite Z.mul_mod_idemp_r by lia.
  rewrite Hp, Hco in Hg by lia.
  replace (a * x) with (1 + (- y) * n) by lia.
  rewrite Z.mod_add by lia. apply Z.mod_small. lia.
Qed.

(** C3: for coprime [a] and [n] with [1 < n], [modular_inverse a n] returns
    a [d] with [0 <= d < n] and [(a * d) mod n = 1]. *)
Theorem modular_inverse_correct (a n : Z) :
  Z.gcd a n = 1 ->
  1 < n ->
  exists d, modular_inverse a n = Ok d /\ 0 <= d < n /\ (a * d) mod n = 1.
Proof.
  exact (modular_inverse_coprime a n).
Qed.

Lemma modular_inverse_correct_witness :
  Z.gcd 3 10 = 1 /\ 1 < 10 /\
  exists d, modular_inverse 3 10 = Ok d /\ 0 <= d < 10 /\ (3 * d) mod 10 = 1.
Proof.
  split; [ reflexivity | ]. split; [ lia | ].
  apply (modular_inverse_correct 3 10); [ reflexivity | lia ].
Defined.

(** C4, as the code has it: [modular_inverse] makes no check of its
    precondition.  On [a] and [n] that are not coprime it raises only when
    [n = 0] (the remainder by zero); for every other [n] it returns a number
    [d], in the range [0 <= d < n] when [n] is positive, and that number is
    not an inverse: [(a * d) mod n <> 1]. *)
Theorem modular_inverse_not_coprime (a n : Z) :
  Z.gcd a n <> 1 ->
  (n = 0 -> modular_inverse a n = Raise ZeroDivisionError)
  /\ (n <> 0 ->
      exists d, modular_inverse a n = Ok d
                /\ (a * d) mod n <> 1
                /\ (0 < n -> 0 <= d < n)).
Proof.
  intros Hco.
  destruct (modular_inverse_cases a n)
    as (g & x & y & _ & _ & _ & _ & Hz & Hnz).
  split; [ exact Hz | ]. intros Hn.
  exists (x mod n). split; [ now apply Hnz | ]. split.
  - intros H. apply Hco. eapply mod_1_coprime. exact H.
  - intros Hpos. apply Z.mod_pos_bound. lia.
Qed.

Lemma modular_inverse_not_coprime_witness :
  Z.gcd 2 4 <> 1 /\
  (4 = 0 -> modular_inverse 2 4 = Raise ZeroDivisionError)
  /\ (4 <> 0 ->
      exists d, modular_inverse 2 4 = Ok d
                /\ (2 * d) mod 4 <> 1
                /\ (0 < 4 -> 0 <= d < 4)).
Proof.
  assert (H : Z.gcd 2 4 <> 1) by (vm_compute; discriminate).
  split; [ exact H | ].
  apply (modular_inverse_not_coprime 2 4 H).
Defined.

(** C4 fails as stated: on 2 and 4, which are not coprime, the call returns
    the number 1 and raises nothing. *)
Lemma modular_inverse_silent_counterexample :
  Z.gcd 2 4 <> 1
  /\ modular_inverse 2 4 = Ok 1
  /\ ~ (forall a n : Z, Z.gcd a n <> 1 ->
          exists e, modular_inverse a n = Raise e).
Proof.
  assert (H : Z.gcd 2 4 <> 1) by (vm_compute; discriminate).
  split; [ exact H | ]. split; [ reflexivity | ].
  intros C. destruct (C 2 4 H) as (e & E). vm_compute in E. discriminate.
Qed.

(** ** Ranges and the integer square root *)

Lemma In_range3 (start stop step i : Z) :
  0 < step ->
  In i (Py.range3 start stop step)
  <-> start <= i < stop /\ (i - start) mod step = 0.
Proof.
  intros Hs. unfold Py.range3. rewrite in_map_iff. split.
  - intros (k & <- & Hk). apply in_seq in Hk.
    replace (start + Z.of_nat k * step - start) with (Z.of_nat k * step) by lia.
    rewrite Z.mod_mul by lia. split; [ | reflexivity ].
    assert (Hk' : Z.of_nat k + 1 <= (stop - start + step - 1) / step) by lia.
    pose proof (Z.mul_div_le (stop - start + step - 1) step Hs). nia.
  - intros (Hi & Hm).
    pose proof (Z.div_mod (i - start) step ltac:(lia)) as Hd.
    rewrite Hm in Hd.
    assert (Hq : 0 <= (i - start) / step) by (apply Z.div_pos; lia).
    exists (Z.to_nat ((i - start) / step)). split; [ lia | ].
    apply in_seq. split; [ lia | ].
    assert ((i - start) / step + 1 <= (stop - start + step - 1) / step);
      [ | lia ].
    apply Z.div_le_lower_bound; nia.
Qed.

Lemma In_range (start stop i : Z) :
  In i (Py.range start stop) <-> start <= i < stop.
Proof.
  unfold Py.range. rewrite In_range3 by lia. rewrite Z.mod_1_r. tauto.
Qed.

(** [Py.ceil_sqrt n] is the least integer whose square reaches [n]. *)
Lemma ceil_sqrt_spec (n : Z) :
  0 < n ->
  (Py.ceil_sqrt n - 1) * (Py.ceil_sqrt n - 1) < n
  /\ n <= Py.ceil_sqrt n * Py.ceil_sqrt n.
Proof.
  intros Hn. pose proof (Z.sqrt_spec n ltac:(lia)) as [Hl Hu].
  pose proof (Z.sqrt_nonneg n).
  unfold Py.ceil_sqrt. destruct (Z.eqb_spec (Z.sqrt n * Z.sqrt n) n); nia.
Qed.

Lemma ceil_sqrt_upper (n m : Z) :
  0 <= n -> 0 <= m -> m * m <= n -> m <= Py.ceil_sqrt n.
Proof.
  intros Hn Hm H. apply Z.sqrt_le_square in H; trivial.
  unfold Py.ceil_sqrt. destruct (_ =? _); lia.
Qed.

Lemma ceil_sqrt_below (n : Z) : 3 <= n -> Py.ceil_sqrt n < n.
Proof.
  intros Hn. pose proof (Z.sqrt_spec n ltac:(lia)) as [Hl Hu].
  pose proof (Z.sqrt_nonneg n).
  unfold Py.ceil_sqrt. destruct (Z.eqb_spec (Z.sqrt n * Z.sqrt n) n); nia.
Qed.

(** ** Primality by trial division *)

Lemma is_prime_scan_true (n : Z) (candidates : list Z) :
  is_prime_scan n candidates = true
  <-> forall i, In i candidates -> n mod i <> 0.
Proof.
  induction candidates as [ | i rest IH ]; cbn.
  - split; [ intros _ i [] | reflexivity ].
  - destruct (Z.eqb_spec (n mod i) 0) as [E | E].
    + split; [ discriminate | ]. intros H. exfalso. apply (H i); auto.
    + rewrite IH. split.
      * intros H j [<- | Hj]; auto.
      * intros H j Hj. apply H. auto.
Qed.

(** A proper divisor of an odd [n] gives an odd one among the candidates
    that [is_prime] tries. *)
Lemma odd_divisor_candidate (n d : Z) :
  2 < n -> n mod 2 <> 0 -> 1 < d < n -> (d | n) ->
  exists i, In i (Py.range3 3 (Py.ceil_sqrt n + 1) 2) /\ n mod i = 0.
Proof.
  intros Hn Hodd Hd [k Hk].
  assert (Hk1 : 1 < k < n) by nia.
  assert (Hsmall : forall m, 1 < m -> (m | n) -> m * m <= n ->
            In m (Py.range3 3 (Py.ceil_sqrt n + 1) 2) /\ n mod m = 0).
  { intros m Hm Hdiv Hsq.
    assert (Hmodd : m mod 2 <> 0).
    { intros E. apply Hodd. apply Z.mod_divide; [ lia | ].
      apply Z.divide_trans with m; trivial. apply Z.mod_divide; trivial; lia. }
    split; [ | apply Z.mod_divide; trivial; lia ].
    apply In_range3; [ lia | ].
    pose proof (ceil_sqrt_upper n m ltac:(lia) ltac:(lia) Hsq).
    pose proof (Z.div_mod m 2 ltac:(lia)).
    pose proof (Z.mod_pos_bound m 2 ltac:(lia)).
    assert (Hm3 : 3 <= m) by lia.
    split; [ lia | ].
    replace (m - 3) with (m mod 2 - 1 + (m / 2 - 1) * 2) by lia.
    rewrite Z.mod_add by lia.
    replace (m mod 2) with 1 by lia. reflexivity. }
  destruct (Z_le_gt_dec d k) as [Hle | Hgt].
  - exists d. apply Hsmall; [ lia | now exists k | nia ].
  - exists k. apply Hsmall; [ lia | exists d; lia | nia ].
Qed.

(** [is_prime] decides primality. *)
Lemma is_prime_iff (n : Z) : is_prime n = true <-> Z.prime n.
Proof.
  unfold is_prime, Z.prime.
  destruct (Z.ltb_spec n 2) as [Hlt | Hge].
  { split; [ discriminate | lia ]. }
  destruct (Z.eqb_spec n 2) as [-> | Hne].
  { split; [ intros _; apply Z.prime_2 | reflexivity ]. }
  destruct (Z.eqb_spec (n mod 2) 0) as [Heven | Hodd].
  { split; [ discriminate | ]. intros [_ H]. exfalso.
    apply (H 2); [ lia | ]. apply Z.mod_divide; trivial; lia. }
  rewrite is_prime_scan_true. split.
  - intros H. split; [ lia | ]. intros d Hd Hdiv.
    destruct (odd_divisor_candidate n d) as (i & Hi & Hz); trivial; [ lia | ].
    exact (H i Hi Hz).
  - intros [_ H] i Hi Hz.
    apply In_range3 in Hi; [ | lia ]. destruct Hi as [Hi _].
    pose proof (ceil_sqrt_below n ltac:(lia)).
    apply (H i); [ lia | ]. apply Z.mod_divide; trivial; lia.
Qed.

(** The definition by trial division decides primality too. *)
Lemma prime_by_trial_division_iff (n : Z) :
  prime_by_trial_division n = true <-> Z.prime n.
Proof.
  unfold prime_by_trial_division, Z.prime.
  rewrite andb_true_iff, forallb_forall, Z.leb_le. split.
  - intros [Hn H]. split; [ lia | ]. intros d Hd Hdiv.
    assert (Hin : In d (Py.range 2 n)) by (apply In_range; lia).
    specialize (H d Hin). apply negb_true_iff, Z.eqb_neq in H.
    apply H. apply Z.mod_divide; trivial; lia.
  - intros [Hn H]. split; [ lia | ]. intros d Hd.
    apply In_range in Hd. apply negb_true_iff, Z.eqb_neq. intros Hz.
    apply (H d); [ lia | ]. apply Z.mod_divide; trivial; lia.
Qed.

(** C5: for [n] in [[0, 1000]], [is_prime n] is true exactly when [n] is
    prime, and agrees with the definition by trial division; it is false
    below 2, true at 2, false on the even numbers above 2, and on the odd
    ones it is true exactly when no odd integer from 3 up to the ceiling of
    the square root of [n], inclusive, divides [n].  On 2, 4, 11 and 15 it
    gives true, false, true and false. *)
Theorem is_prime_correct (n : Z) :
  0 <= n <= 1000 ->
  (is_prime n = true <-> Z.prime n)
  /\ is_prime n = prime_by_trial_division n
  /\ (n < 2 -> is_prime n = false)
  /\ (n = 2 -> is_prime n = true)
  /\ (2 < n -> n mod 2 = 0 -> is_prime n = false)
  /\ (2 < n -> n mod 2 <> 0 ->
      (is_prime n = true <->
       forall i, 3 <= i <= Py.ceil_sqrt n -> i mod 2 = 1 -> n mod i <> 0))
  /\ is_prime 2 = true /\ is_prime 4 = false
  /\ is_prime 11 = true /\ is_prime 15 = false.
Proof.
  intros _. split; [ apply is_prime_iff | ]. split.
  { apply eq_true_iff_eq.
    now rewrite is_prime_iff, prime_by_trial_division_iff. }
  split.
  { intros H. unfold is_prime. now apply Z.ltb_lt in H as ->. }
  split; [ now intros -> | ]. split.
  { intros H2 He. unfold is_prime.
    destruct (Z.ltb_spec n 2); [ reflexivity | ].
    destruct (Z.eqb_spec n 2); [ lia | ].
    now apply Z.eqb_eq in He as ->. }
  split; [ | repeat split ].
  intros H2 Ho. unfold is_prime.
  destruct (Z.ltb_spec n 2) as [ | _ ]; [ lia | ].
  destruct (Z.eqb_spec n 2) as [ | _ ]; [ lia | ].
  destruct (Z.eqb_spec (n mod 2) 0) as [ | _ ]; [ contradiction | ].
  rewrite is_prime_scan_true. split.
  - intros H i Hi Hodd. apply H. apply In_range3; [ lia | ].
    split; [ lia | ].
    pose proof (Z.div_mod i 2 ltac:(lia)) as Hd.
    replace (i - 3) with (i mod 2 - 1 + (i / 2 - 1) * 2) by lia.
    rewrite Z.mod_add by lia. now rewrite Hodd.
  - intros H i Hi. apply In_range3 in Hi; [ | lia ].
    destruct Hi as [Hi Hm]. apply H; [ lia | ].
    pose proof (Z.div_mod (i - 3) 2 ltac:(lia)) as Hd.
    replace i with (1 + ((i - 3) / 2 + 1) * 2) by lia.
    rewrite Z.mod_add by lia. reflexivity.
Qed.

Lemma is_prime_correct_witness :
  0 <= 997 <= 1000 /\ (is_prime 997 = true <-> Z.prime 997).
Proof.
  assert (H : 0 <= 997 <= 1000) by lia.
  split; [ exact H | ].
  exact (proj1 (is_prime_correct 997 H)).
Defined.

(** ** The nth prime *)

(** C8: for every [n <= 1], zero and the negative integers included,
    [get_prime_number n] returns 2, as [get_prime_number 1] does: the test
    of the loop fails at once, so one unit of fuel is enough. *)
Theorem get_prime_number_le_1 (n : Z) (fuel : nat) :
  n <= 1 ->
  get_prime_number (S fuel) n = Some 2
  /\ get_prime_number (S fuel) n = get_prime_number (S fuel) 1.
Proof.
  intros Hn. unfold get_prime_number. cbn.
  destruct (Z.ltb_spec 1 n) as [ | _ ]; [ lia | ]. split; reflexivity.
Qed.

Lemma get_prime_number_le_1_witness :
  -5 <= 1 /\ get_prime_number 1 (-5) = Some 2.
Proof.
  split; [ lia | ].
  exact (proj1 (get_prime_number_le_1 (-5) 0 ltac:(lia))).
Defined.

(** ** The public exponent *)

Lemma range_nil (start stop : Z) : stop <= start -> Py.range start stop = [].
Proof.
  intros H. unfold Py.range, Py.range3.
  rewrite Z.div_1_r. replace (Z.to_nat _) with O by lia. reflexivity.
Qed.

Lemma range_cons (start stop : Z) :
  start < stop -> Py.range start stop = start :: Py.range (start + 1) stop.
Proof.
  intros H. unfold Py.range, Py.range3. rewrite !Z.div_1_r.
  replace (Z.to_nat (stop - start + 1 - 1))
    with (S (Z.to_nat (stop - (start + 1) + 1 - 1))) by lia.
  cbn [seq map]. f_equal; [ lia | ].
  rewrite <- seq_shift, map_map. apply map_ext. intros k. lia.
Qed.

(** The scan of [choose_e] over [range(start, stop)], for a positive
    totient: it returns the first candidate coprime to the totient, and
    [None] when the range holds no such candidate. *)
Lemma choose_e_scan_range (my_totient stop : Z) (len : nat) :
  0 < my_totient ->
  forall start, Z.to_nat (stop - start) = len ->
    (exists e,
        choose_e_scan my_totient (Py.range start stop) = Ok (Some e)
        /\ start <= e < stop
        /\ Z.gcd e my_totient = 1
        /\ forall i, start <= i < e -> Z.gcd i my_totient <> 1)
    \/ (choose_e_scan my_totient (Py.range start stop) = Ok None
        /\ forall i, start <= i < stop -> Z.gcd i my_totient <> 1).
Proof.
  intros Hpos. induction len as [ | len IH ]; intros start Hlen.
  - right. rewrite range_nil by lia. split; [ reflexivity | lia ].
  - rewrite range_cons by lia. cbn [choose_e_scan].
    destruct (extended_gcd_pos start my_totient Hpos) as (x & y & -> & _).
    cbn. destruct (Z.eqb_spec (Z.gcd start my_totient) 1) as [E | E].
    + left. exists start. repeat split; trivial; lia.
    + destruct (IH (start + 1) ltac:(lia))
        as [(e & -> & He & Hg & Hmin) | (-> & Hnone)].
      * left. exists e. repeat split; trivial; try lia.
        intros i Hi. destruct (Z.eq_dec i start) as [-> | ]; trivial.
        apply Hmin. lia.
      * right. split; trivial.
        intros i Hi. destruct (Z.eq_dec i start) as [-> | ]; trivial.
        apply Hnone. lia.
Qed.

(** [choose_e] on any [p] and [q]: the least coprime candidate of the range
    from 2 up to the totient minus 2, or [None]. *)
Lemma choose_e_cases (p q : Z) :
  let my_totient := compute_totient p q in
  (exists e,
      choose_e p q = Ok (Some e)
      /\ 2 <= e < my_totient - 1
      /\ Z.gcd e my_totient = 1
      /\ forall i, 2 <= i < e -> Z.gcd i my_totient <> 1)
  \/ (choose_e p q = Ok None
      /\ forall i, 2 <= i < my_totient - 1 -> Z.gcd i my_totient <> 1).
Proof.
  intros my_totient. unfold choose_e. fold my_totient.
  destruct (Z_lt_le_dec 3 my_totient) as [Hbig | Hsmall].
  - apply (choose_e_scan_range my_totient (my_totient - 1)
             (Z.to_nat (my_totient - 1 - 2))); [ lia | reflexivity ].
  - right. rewrite range_nil by lia. split; [ reflexivity | lia ].
Qed.

(** C6: for primes [p] and [q] with totient [(p - 1) * (q - 1)], when some
    integer of the scan range, from 2 up to the totient minus 2, is coprime
    to the totient, [choose_e p q] returns the smallest integer that is at
    least 2 and coprime to the totient; when none is, it falls through and
    returns [None]. *)
Theorem choose_e_smallest_coprime (p q : Z) :
  Z.prime p -> Z.prime q ->
  let my_totient := (p - 1) * (q - 1) in
  ((exists i, 2 <= i < my_totient - 1 /\ Z.gcd i my_totient = 1) ->
   exists e,
     choose_e p q = Ok (Some e)
     /\ 2 <= e < my_totient - 1
     /\ Z.gcd e my_totient = 1
     /\ forall i, 2 <= i -> Z.gcd i my_totient = 1 -> e <= i)
  /\ ((forall i, 2 <= i < my_totient - 1 -> Z.gcd i my_totient <> 1) ->
      choose_e p q = Ok None).
Proof.
  intros _ _ my_totient. subst my_totient.
  destruct (choose_e_cases p q)
    as [(e & E & He & Hg & Hmin) | (E & Hnone)];
    unfold compute_totient in *.
  - split.
    + intros _. exists e. repeat split; trivial; try lia.
      intros i Hi Hco. destruct (Z_lt_le_dec i e) as [Hlt | ]; trivial.
      exfalso. apply (Hmin i); trivial. lia.
    + intros Hnone. exfalso. apply (Hnone e); trivial.
  - split; trivial.
    intros (i & Hi & Hco). exfalso. apply (Hnone i); trivial.
Qed.

Lemma choose_e_smallest_coprime_witness :
  Z.prime 3 /\ Z.prime 5 /\
  exists e, choose_e 3 5 = Ok (Some e)
            /\ Z.gcd e ((3 - 1) * (5 - 1)) = 1.
Proof.
  assert (H3 : Z.prime 3) by (apply is_prime_iff; reflexivity).
  assert (H5 : Z.prime 5) by (apply is_prime_iff; reflexivity).
  split; [ exact H3 | ]. split; [ exact H5 | ].
  destruct (proj1 (choose_e_smallest_coprime 3 5 H3 H5))
    as (e & E & _ & Hg & _).
  - exists 3. split; [ vm_compute; intuition discriminate | reflexivity ].
  - exists e. split; assumption.
Defined.

(** C9: when the totient [(p - 1) * (q - 1)] is at most 3, the range of the
    scan, from 2 up to but excluding the totient minus 1, is empty and
    [choose_e p q] returns [None]. *)
Theorem choose_e_small_totient (p q : Z) :
  (p - 1) * (q - 1) <= 3 ->
  Py.range 2 ((p - 1) * (q - 1) - 1) = []
  /\ choose_e p q = Ok None.
Proof.
  intros H. unfold choose_e, compute_totient. rewrite range_nil by lia.
  split; reflexivity.
Qed.

Lemma choose_e_small_totient_witness :
  (2 - 1) * (3 - 1) <= 3 /\ choose_e 2 3 = Ok None.
Proof.
  assert (H : (2 - 1) * (3 - 1) <= 3) by (vm_compute; discriminate).
  split; [ exact H | ].
  exact (proj2 (choose_e_small_totient 2 3 H)).
Defined.

(** ** The communicating party *)

(** C10: the four methods of [communication_party] depend on their explicit
    arguments only: called with the same arguments on any two instances they
    give the same outcome, and each leaves the instance it was called on as
    it was, whatever its fields [p] and [q] hold. *)
Theorem communication_party_methods_frame (message e n cipher d : Z) :
  communication_party.frame (communication_party.encrypt message e n)
  /\ communication_party.frame (communication_party.decrypt cipher d n)
  /\ communication_party.frame (communication_party.get_public_key e n)
  /\ communication_party.frame (communication_party.get_private_key d n).
Proof.
  repeat split.
Qed.

(** ** The round trip *)

Lemma prime_2_or_odd (p : Z) : Z.prime p -> p = 2 \/ p mod 2 = 1.
Proof.
  intros [Hge Hp].
  destruct (Z.eq_dec p 2) as [ | Hne ]; [ now left | right ].
  pose proof (Z.mod_pos_bound p 2 ltac:(lia)) as Hb.
  destruct (Z.eq_dec (p mod 2) 0) as [E | E]; [ exfalso | lia ].
  apply (Hp 2); [ lia | ]. apply Z.mod_divide; trivial; lia.
Qed.

(** The totient of two distinct primes is even. *)
Lemma compute_totient_even (p q : Z) :
  Z.prime p -> Z.prime q -> p <> q -> compute_totient p q mod 2 = 0.
Proof.
  intros Hp Hq Hne. unfold compute_totient.
  assert (Hodd : forall r, r mod 2 = 1 -> (2 | r - 1)).
  { intros r Hr. pose proof (Z.div_mod r 2 ltac:(lia)) as Hd.
    exists (r / 2). lia. }
  apply Z.mod_divide; [ lia | ].
  destruct (prime_2_or_odd p Hp) as [-> | Hpo].
  - destruct (prime_2_or_odd q Hq) as [-> | Hqo]; [ contradiction | ].
    apply Z.divide_mul_r. now apply Hodd.
  - apply Z.divide_mul_l. now apply Hodd.
Qed.

(** An even totient above 6 has a coprime candidate in the range that
    [choose_e] scans: half of it minus 1 when the half is even, half of it
    minus 2 when the half is odd. *)
Lemma coprime_candidate_exists (my_totient : Z) :
  6 < my_totient -> my_totient mod 2 = 0 ->
  exists i, 2 <= i < my_totient - 1 /\ Z.gcd i my_totient = 1.
Proof.
  intros Hbig Heven.
  pose proof (Z.div_mod my_totient 2 ltac:(lia)) as Hk. rewrite Heven in Hk.
  set (k := my_totient / 2) in *.
  pose proof (Z.div_mod k 2 ltac:(lia)) as Hj.
  pose proof (Z.mod_pos_bound k 2 ltac:(lia)) as Hb.
  set (j := k / 2) in *.
  destruct (Z.eq_dec (k mod 2) 0) as [E | E].
  - exists (k - 1). split; [ lia | ].
    apply Z.bezout_1_gcd. exists (- (k + 1)), j. nia.
  - exists (k - 2). split; [ lia | ].
    apply Z.bezout_1_gcd. exists (2 * j * j - 1), (- (j * j - j)). nia.
Qed.

(** Fermat's little theorem, in the shape the round trip uses. *)
Lemma pow_mod_prime (p m t : Z) :
  Z.prime p -> 0 <= t -> m ^ (1 + t * (p - 1)) mod p = m mod p.
Proof.
  intros Hp Ht. pose proof (Z.prime_ge_2 p Hp) as Hge.
  rewrite Z.pow_add_r, Z.pow_1_r by nia.
  rewrite (Z.mul_comm t), Z.pow_mul_r by lia.
  rewrite Z.mul_mod by lia.
  destruct (Z.eq_dec (m mod p) 0) as [E | E].
  - rewrite E, Z.mul_0_l. apply Z.mod_0_l. lia.
  - rewrite <- Z.mod_pow_l, (Z.fermat_nz p m Hp E), Z.pow_1_l by trivial.
    rewrite (Z.mod_small 1) by lia.
    now rewrite Z.mul_1_r, Z.mod_mod by lia.
Qed.

(** Two distinct primes that each divide a number divide it together. *)
Lemma divide_prime_product (p q x : Z) :
  Z.prime p -> Z.prime q -> p <> q -> (p | x) -> (q | x) -> (p * q | x).
Proof.
  intros Hp Hq Hne [c ->] Hqx.
  rewrite (Z.mul_comm p q). apply Z.mul_divide_mono_r.
  apply Z.gauss with p; [ now rewrite Z.mul_comm | ].
  apply Z.coprime_prime_l; trivial.
  intros Hdiv. apply Hne. symmetry. now apply Z.divide_prime_prime.
Qed.

(** The heart of RSA: raising to [e * d] is the identity modulo [p * q]
    when [e * d] is 1 modulo the totient. *)
Lemma pow_mod_totient (p q e d m : Z) :
  Z.prime p -> Z.prime q -> p <> q ->
  0 <= e -> 0 <= d -> (e * d) mod compute_totient p q = 1 ->
  m ^ (e * d) mod (p * q) = m mod (p * q).
Proof.
  intros Hp Hq Hne He Hd Hed. unfold compute_totient in Hed.
  pose proof (Z.prime_ge_2 p Hp) as Hp2. pose proof (Z.prime_ge_2 q Hq) as Hq2.
  pose proof (Z.div_mod (e * d) ((p - 1) * (q - 1)) ltac:(nia)) as Hdiv.
  rewrite Hed in Hdiv.
  set (k := e * d / ((p - 1) * (q - 1))) in *.
  assert (Hk : 0 <= k)
    by (apply Z.div_pos; nia).
  apply Z.cong_iff_0. apply Z.mod_divide; [ nia | ].
  apply divide_prime_product; trivial.
  - apply Z.mod_divide; [ lia | ]. apply Z.cong_iff_0.
    replace (e * d) with (1 + (k * (q - 1)) * (p - 1)) by lia.
    apply pow_mod_prime; trivial. nia.
  - apply Z.mod_divide; [ lia | ]. apply Z.cong_iff_0.
    replace (e * d) with (1 + (k * (p - 1)) * (q - 1)) by lia.
    apply pow_mod_prime; trivial. nia.
Qed.

(** The two transforms undo each other under a key pair [e], [d] whose
    product is 1 modulo the totient. *)
Lemma decrypt_encrypt (party : communication_party.t) (p q e d m : Z) :
  Z.prime p -> Z.prime q -> p <> q ->
  0 <= e -> 0 <= d -> (e * d) mod compute_totient p q = 1 ->
  0 <= m < p * q ->
  exists cipher,
    fst (communication_party.encrypt m e (p * q) party) = Ok cipher
    /\ fst (communication_party.decrypt cipher d (p * q) party) = Ok m.
Proof.
  intros Hp Hq Hne He Hd Hed Hm.
  exists (m ^ e mod (p * q)). cbn. unfold Py.pow.
  destruct (Z.eqb_spec (p * q) 0) as [ | _ ]; [ lia | ].
  destruct (Z.leb_spec 0 e) as [ _ | ]; [ | lia ].
  destruct (Z.leb_spec 0 d) as [ _ | ]; [ | lia ].
  split; [ reflexivity | ]. f_equal.
  rewrite Z.mod_pow_l, <- Z.pow_mul_r by trivial.
  rewrite (pow_mod_totient p q e d m) by trivial.
  apply Z.mod_small. exact Hm.
Qed.

(** C1, as the code has it: for distinct primes [p] and [q] whose totient
    [(p - 1) * (q - 1)] is above 6, [choose_e p q] returns an exponent [e],
    [choose_d e p q] an exponent [d], and with [n = p * q] every message [m]
    with [0 <= m < n] is recovered: decrypting the encryption of [m] gives
    [m] back. *)
Theorem round_trip_correct (party : communication_party.t) (p q m : Z) :
  Z.prime p -> Z.prime q -> p <> q ->
  6 < compute_totient p q ->
  0 <= m < p * q ->
  exists e d cipher,
    choose_e p q = Ok (Some e)
    /\ choose_d e p q = Ok d
    /\ fst (communication_party.encrypt m e (p * q) party) = Ok cipher
    /\ fst (communication_party.decrypt cipher d (p * q) party) = Ok m
    /\ round_trip party p q m = Ok m.
Proof.
  intros Hp Hq Hne Hbig Hm.
  destruct (coprime_candidate_exists (compute_totient p q) Hbig
              (compute_totient_even p q Hp Hq Hne)) as (i & Hi & Hico).
  destruct (choose_e_cases p q)
    as [(e & Ee & He & Hg & _) | (_ & Hnone)];
    [ | exfalso; exact (Hnone i Hi Hico) ].
  destruct (modular_inverse_coprime e (compute_totient p q) Hg ltac:(lia))
    as (d & Ed & Hd & Hed).
  destruct (decrypt_encrypt party p q e d m) as (cipher & Ec & Em);
    trivial; try lia.
  exists e, d, cipher. repeat split; trivial.
  unfold round_trip. rewrite Ee. cbn [Py.bind].
  unfold choose_d in *. rewrite Ed. cbn [Py.bind].
  rewrite Ec. cbn [Py.bind]. exact Em.
Qed.

Lemma round_trip_correct_witness :
  Z.prime 3 /\ Z.prime 5 /\ 3 <> 5 /\ 6 < compute_totient 3 5
  /\ 0 <= 7 < 3 * 5
  /\ round_trip (communication_party.Build 3 5) 3 5 7 = Ok 7.
Proof.
  assert (H3 : Z.prime 3) by (apply is_prime_iff; reflexivity).
  assert (H5 : Z.prime 5) by (apply is_prime_iff; reflexivity).
  assert (Hne : 3 <> 5) by lia.
  assert (Hbig : 6 < compute_totient 3 5) by reflexivity.
  assert (Hm : 0 <= 7 < 3 * 5) by lia.
  repeat (split; [ assumption | ]).
  destruct (round_trip_correct (communication_party.Build 3 5) 3 5 7
              H3 H5 Hne Hbig Hm) as (e & d & cipher & _ & _ & _ & _ & E).
  exact E.
Defined.

(** C1 fails as stated: 2 and 3 are distinct primes, yet [choose_e 2 3]
    returns [None], [choose_d] raises on it, and no message is recovered.
    The same happens on 2 and 5 and on 2 and 7. *)
Lemma round_trip_small_primes_counterexample :
  Z.prime 2 /\ Z.prime 3 /\ 2 <> 3 /\ 0 <= 1 < 2 * 3
  /\ choose_e 2 3 = Ok None
  /\ round_trip (communication_party.Build 2 3) 2 3 1 = Raise TypeError
  /\ choose_e 2 5 = Ok None
  /\ choose_e 2 7 = Ok None
  /\ ~ (forall party p q m,
          Z.prime p -> Z.prime q -> p <> q -> 0 <= m < p * q ->
          round_trip party p q m = Ok m).
Proof.
  assert (H2 : Z.prime 2) by (apply is_prime_iff; reflexivity).
  assert (H3 : Z.prime 3) by (apply is_prime_iff; reflexivity).
  split; [ exact H2 | ]. split; [ exact H3 | ].
  split; [ lia | ]. split; [ lia | ].
  repeat (split; [ reflexivity | ]).
  intros C.
  specialize (C (communication_party.Build 2 3) 2 3 1 H2 H3
                ltac:(lia) ltac:(lia)).
  vm_compute in C. discriminate.
Qed.

(** ** The recursive Euclidean algorithm *)

(** What [recursive_euclidean] returns, when the frames suffice: its first
    argument for [b = 0], and otherwise the gcd with the sign of [b]. *)
Lemma recursive_euclidean_spec (depth : nat) :
  forall a b g,
    recursive_euclidean depth a b = Some g ->
    Z.abs g = Z.gcd a b
    /\ (b = 0 -> g = a)
    /\ (0 < b -> 0 < g)
    /\ (b < 0 -> g < 0).
Proof.
  induction depth as [ | depth IH ]; intros a b g; cbn; [ discriminate | ].
  destruct (Z.eqb_spec b 0) as [-> | Hb].
  - intros [= ->]. rewrite Z.gcd_0_r. repeat split; lia.
  - intros E. destruct (IH _ _ _ E) as (Habs & Hz & Hp & Hn).
    pose proof (Z.mod_bound_or a b Hb) as Hr.
    split; [ rewrite Habs, Z.gcd_comm; apply Z.gcd_mod_l | ].
    split; [ contradiction | ].
    split; intros Hs;
      (destruct (Z.eq_dec (a mod b) 0) as [E0 | E0];
       [ rewrite (Hz E0); lia | ]).
    + apply Hp. lia.
    + apply Hn. lia.
Qed.

Lemma recursive_euclidean_S (depth : nat) (a b : Z) :
  recursive_euclidean (S depth) a b
  = if b =? 0 then Some a else recursive_euclidean depth b (a mod b).
Proof. reflexivity. Qed.

(** Two remainders halve the divisor: the frames that the recursion takes
    are at most twice the binary logarithm of [|b|], plus two. *)
Lemma recursive_euclidean_depth (depth : nat) :
  forall a b,
    2 * Z.log2 (Z.abs b) + 2 <= Z.of_nat depth ->
    exists g, recursive_euclidean depth a b = Some g.
Proof.
  induction depth as [depth IH] using lt_wf_ind. intros a b Hd.
  pose proof (Z.log2_nonneg (Z.abs b)) as Hl.
  destruct depth as [ | [ | depth ] ]; [ lia | lia | ].
  rewrite recursive_euclidean_S.
  destruct (Z.eqb_spec b 0) as [ | Hb ]; [ now exists a | ].
  set (r := a mod b).
  pose proof (Z.mod_bound_or a b Hb) as Hr. fold r in Hr.
  rewrite recursive_euclidean_S.
  destruct (Z.eqb_spec r 0) as [ | Hr0 ]; [ now exists b | ].
  pose proof (Z.mod_bound_or b r Hr0) as Hr2.
  pose proof (Z.div_mod b r Hr0) as Hdiv.
  destruct (Z.eq_dec (b mod r) 0) as [E0 | H0].
  - rewrite E0. destruct depth as [ | depth ]; [ exfalso | now exists r ].
    assert (H2 : 2 <= Z.abs b) by lia.
    apply Z.log2_le_mono in H2. change (Z.log2 2) with 1 in H2. lia.
  - apply IH; [ lia | ].
    assert (Hq : 1 <= b / r).
    { destruct (Z_lt_le_dec (b / r) 1) as [Hlt | ]; [ | lia ]. nia. }
    assert (Hdouble : 2 * Z.abs (b mod r) <= Z.abs b) by nia.
    apply Z.log2_le_mono in Hdouble.
    rewrite Z.log2_double in Hdouble by lia. lia.
Qed.

(** ** The nth prime, continued *)

Lemma range_snoc (start stop : Z) :
  start <= stop -> Py.range start (stop + 1) = Py.range start stop ++ [stop].
Proof.
  intros H. unfold Py.range, Py.range3. rewrite !Z.div_1_r.
  replace (Z.to_nat (stop + 1 - start + 1 - 1))
    with (S (Z.to_nat (stop - start + 1 - 1))) by lia.
  rewrite seq_S, map_app. cbn [map]. do 2 f_equal. lia.
Qed.

Lemma NoDup_range (start stop : Z) : NoDup (Py.range start stop).
Proof.
  unfold Py.range, Py.range3.
  apply Stdlib.Lists.Finite.Injective_map_NoDup; [ | apply seq_NoDup ].
  intros j k H. lia.
Qed.

Lemma count_primes_small (m : Z) : m < 2 -> count_primes m = 0.
Proof.
  intros H. unfold count_primes. now rewrite range_nil by lia.
Qed.

Lemma count_primes_succ (m : Z) :
  1 <= m ->
  count_primes (m + 1)
  = count_primes m + (if is_prime (m + 1) then 1 else 0).
Proof.
  intros H. unfold count_primes.
  rewrite (range_snoc 2 (m + 1)) by lia.
  rewrite filter_app, length_app. cbn [filter].
  destruct (is_prime (m + 1)); cbn [length]; lia.
Qed.

Lemma count_primes_mono (m k : Z) :
  m <= k -> count_primes m <= count_primes k.
Proof.
  intros H. replace k with (m + Z.of_nat (Z.to_nat (k - m))) by lia.
  induction (Z.to_nat (k - m)) as [ | j IH ].
  - rewrite Z.add_0_r. lia.
  - destruct (Z_lt_le_dec (m + Z.of_nat j) 1) as [Hs | Hs].
    + rewrite (count_primes_small m) by lia.
      unfold count_primes. lia.
    + replace (m + Z.of_nat (S j)) with (m + Z.of_nat j + 1) by lia.
      rewrite count_primes_succ by lia.
      destruct (is_prime _); lia.
Qed.

(** The primes up to [m] are [count_primes m] many. *)
Lemma count_primes_spec (m : Z) :
  exists l, NoDup l
            /\ (forall x, In x l <-> Z.prime x /\ x <= m)
            /\ Z.of_nat (length l) = count_primes m.
Proof.
  exists (filter is_prime (Py.range 2 (m + 1))).
  split; [ apply NoDup_filter, NoDup_range | ].
  split; [ | reflexivity ].
  intros x. rewrite filter_In, In_range, is_prime_iff.
  split; [ intros [Hx Hp]; split; [ exact Hp | lia ] | ].
  intros [Hp Hx]. pose proof (Z.prime_ge_2 x Hp). split; [ lia | exact Hp ].
Qed.

(** A list of distinct primes up to [m] is no longer than
    [count_primes m]. *)
Lemma count_primes_at_least (m : Z) (primes : list Z) :
  NoDup primes ->
  (forall x, In x primes -> Z.prime x /\ x <= m) ->
  Z.of_nat (length primes) <= count_primes m.
Proof.
  intros Hnd Hp. unfold count_primes. apply inj_le.
  apply NoDup_incl_length; [ exact Hnd | ].
  intros x Hx. destruct (Hp x Hx) as [Hprime Hle].
  pose proof (Z.prime_ge_2 x Hprime).
  apply filter_In. split; [ apply In_range; lia | now apply is_prime_iff ].
Qed.

(** What the loop of [get_prime_number] keeps true: [count] is the number
    of primes up to [prime_number], it never passes [n] (nor 1), and once
    it has reached [n] the number [prime_number] is prime. *)
Lemma get_prime_number_loop_spec (fuel : nat) (n : Z) :
  forall prime_number count p,
    2 <= prime_number ->
    count = count_primes prime_number ->
    count <= Z.max n 1 ->
    (n <= count -> is_prime prime_number = true) ->
    get_prime_number_loop fuel n prime_number count = Some p ->
    is_prime p = true /\ count_primes p = Z.max n 1.
Proof.
  induction fuel as [ | fuel IH ]; intros pn count p Hpn Hc Hmax Hpr;
    cbn [get_prime_number_loop]; [ discriminate | ].
  destruct (Z.ltb_spec count n) as [Hlt | Hge].
  - pose proof (count_primes_succ pn ltac:(lia)) as Hs.
    destruct (is_prime (pn + 1)) eqn:E; cbv iota in Hs; intros H.
    + apply (IH (pn + 1) (count + 1) p); trivial; lia.
    + apply (IH (pn + 1) count p); trivial; lia.
  - intros [= <-]. split; [ apply Hpr; lia | ].
    pose proof (count_primes_mono 2 pn Hpn) as Hm.
    change (count_primes 2) with 1 in Hm. lia.
Qed.

(** More fuel does not change what the loop returns. *)
Lemma get_prime_number_loop_fuel (fuel : nat) (n : Z) :
  forall fuel' prime_number count p,
    (fuel <= fuel')%nat ->
    get_prime_number_loop fuel n prime_number count = Some p ->
    get_prime_number_loop fuel' n prime_number count = Some p.
Proof.
  induction fuel as [ | fuel IH ]; intros fuel' pn count p Hle;
    cbn [get_prime_number_loop]; [ discriminate | ].
  destruct fuel' as [ | fuel' ]; [ lia | ]. cbn [get_prime_number_loop].
  destruct (count <? n); trivial.
  destruct (is_prime (pn + 1)); apply IH; lia.
Qed.

Lemma get_prime_number_loop_S (fuel : nat) (n prime_number count : Z) :
  get_prime_number_loop (S fuel) n prime_number count
  = if count <? n then
      if is_prime (prime_number + 1)
      then get_prime_number_loop fuel n (prime_number + 1) (count + 1)
      else get_prime_number_loop fuel n (prime_number + 1) count
    else Some prime_number.
Proof. reflexivity. Qed.

(** The loop ends before [prime_number] passes a bound with [n] primes up
    to it. *)
Lemma get_prime_number_loop_ends (k : nat) (n B : Z) :
  forall prime_number count,
    1 <= prime_number <= B ->
    count = count_primes prime_number ->
    n <= count_primes B ->
    Z.to_nat (B - prime_number) = k ->
    exists p, get_prime_number_loop (S k) n prime_number count = Some p.
Proof.
  induction k as [ | k IH ]; intros pn count Hpn Hc HB Hk;
    rewrite get_prime_number_loop_S.
  - destruct (Z.ltb_spec count n) as [Hlt | ]; [ exfalso | now exists pn ].
    replace B with pn in HB by lia. lia.
  - destruct (Z.ltb_spec count n) as [Hlt | ]; [ | now exists pn ].
    pose proof (count_primes_succ pn ltac:(lia)) as Hs.
    destruct (is_prime (pn + 1)); cbv iota in Hs; apply IH; lia.
Qed.

Lemma count_primes_2 : count_primes 2 = 1.
Proof. reflexivity. Qed.

(** The nth prime is found with the fuel that reaches any bound with [n]
    primes up to it. *)
Lemma get_prime_number_below (n B : Z) :
  2 <= B -> n <= count_primes B ->
  exists p, get_prime_number (S (Z.to_nat (B - 2))) n = Some p.
Proof.
  intros HB Hn. unfold get_prime_number.
  apply (get_prime_number_loop_ends _ n B); trivial; lia.
Qed.

Lemma get_prime_number_spec (fuel : nat) (n p : Z) :
  get_prime_number fuel n = Some p ->
  is_prime p = true /\ count_primes p = Z.max n 1.
Proof.
  apply get_prime_number_loop_spec; try reflexivity; lia.
Qed.

(** The search does not pass a bound with [n] primes up to it. *)
Lemma get_prime_number_le_bound (fuel : nat) (n p B : Z) :
  2 <= B -> n <= count_primes B ->
  get_prime_number fuel n = Some p ->
  p <= B.
Proof.
  intros HB Hn H. apply get_prime_number_spec in H. destruct H as [Hp Hc].
  assert (H2 : 2 <= p) by (apply Z.prime_ge_2; now apply is_prime_iff).
  destruct (Z_lt_le_dec B p) as [Hlt | ]; [ exfalso | lia ].
  pose proof (count_primes_succ (p - 1) ltac:(lia)) as Hs.
  replace (p - 1 + 1) with p in Hs by lia. rewrite Hp in Hs.
  pose proof (count_primes_mono B (p - 1) ltac:(lia)).
  pose proof (count_primes_mono 2 B HB) as Hm.
  change (count_primes 2) with 1 in Hm. lia.
Qed.

(** X3: when [get_prime_number n] returns [p] for an [n] of at least 1, and
    [p] is at most [2 ^ 52], so that every square root that [is_prime] took
    on the way is the one the double computation gives, [p] is the nth
    prime: it is prime, and the primes up to it are exactly [n] many. *)
Theorem get_prime_number_nth_prime (fuel : nat) (n p : Z) :
  1 <= n ->
  get_prime_number fuel n = Some p ->
  p <= 2 ^ 52 ->
  Z.prime p
  /\ exists l, NoDup l
               /\ (forall x, In x l <-> Z.prime x /\ x <= p)
               /\ Z.of_nat (length l) = n.
Proof.
  intros Hn H _. apply get_prime_number_spec in H. destruct H as [Hp Hc].
  split; [ now apply is_prime_iff | ].
  destruct (count_primes_spec p) as (l & Hnd & Hin & Hlen).
  exists l. split; [ exact Hnd | ]. split; [ exact Hin | lia ].
Qed.

Lemma get_prime_number_nth_prime_witness :
  1 <= 5 /\ get_prime_number 20 5 = Some 11 /\ 11 <= 2 ^ 52 /\ Z.prime 11.
Proof.
  assert (H : get_prime_number 20 5 = Some 11) by reflexivity.
  assert (Hb : 11 <= 2 ^ 52) by (vm_compute; discriminate).
  split; [ lia | ]. split; [ exact H | ]. split; [ exact Hb | ].
  exact (proj1 (get_prime_number_nth_prime 20 5 11 ltac:(lia) H Hb)).
Defined.

(** X4: the search of [get_prime_number] ends below any bound that has
    enough primes.  When at least [n] distinct primes lie at or below a
    bound [B] of at most [2 ^ 52], [get_prime_number n] returns within
    [B - 1] tests of its loop, what it returns is at most [B], and allowing
    more iterations gives the same result. *)
Theorem get_prime_number_ends_within (n B : Z) (primes : list Z) :
  2 <= B <= 2 ^ 52 ->
  NoDup primes ->
  (forall x, In x primes -> Z.prime x /\ x <= B) ->
  n <= Z.of_nat (length primes) ->
  exists p,
    get_prime_number (S (Z.to_nat (B - 2))) n = Some p
    /\ p <= B
    /\ forall fuel',
         (S (Z.to_nat (B - 2)) <= fuel')%nat ->
         get_prime_number fuel' n = Some p.
Proof.
  intros [HB _] Hnd Hprimes Hn.
  pose proof (count_primes_at_least B primes Hnd Hprimes) as Hc.
  destruct (get_prime_number_below n B HB ltac:(lia)) as (p & Hp).
  exists p. split; [ exact Hp | ]. split.
  - apply (get_prime_number_le_bound _ n p B HB ltac:(lia) Hp).
  - intros fuel' Hle. unfold get_prime_number in *.
    now apply (get_prime_number_loop_fuel _ n fuel' 2 1 p Hle).
Qed.

Lemma get_prime_number_ends_within_witness :
  2 <= 11 <= 2 ^ 52
  /\ NoDup [2; 3; 5; 7; 11]
  /\ (forall x, In x [2; 3; 5; 7; 11] -> Z.prime x /\ x <= 11)
  /\ 5 <= Z.of_nat (length [2; 3; 5; 7; 11])
  /\ exists p, get_prime_number 10 5 = Some p /\ p <= 11.
Proof.
  assert (HB : 2 <= 11 <= 2 ^ 52)
    by (split; vm_compute; discriminate).
  assert (Hnd : NoDup [2; 3; 5; 7; 11])
    by (repeat (constructor; [ cbn; lia | ]); constructor).
  assert (Hp : forall x, In x [2; 3; 5; 7; 11] -> Z.prime x /\ x <= 11).
  { intros x Hx. cbn in Hx.
    repeat (destruct Hx as [<- | Hx];
            [ split; [ apply is_prime_iff; reflexivity | lia ] | ]).
    contradiction. }
  assert (Hn : 5 <= Z.of_nat (length [2; 3; 5; 7; 11])) by (cbn; lia).
  split; [ exact HB | ]. split; [ exact Hnd | ]. split; [ exact Hp | ].
  split; [ exact Hn | ].
  destruct (get_prime_number_ends_within 5 11 [2; 3; 5; 7; 11]
              HB Hnd Hp Hn) as (p & E & Hle & _).
  exists p. split; [ exact E | exact Hle ].
Defined.

(** X5: [get_prime_number] is strictly increasing from 1 on: a larger index
    gives a larger prime. *)
Theorem get_prime_number_increasing (fuel fuel' : nat) (n m p q : Z) :
  1 <= n < m ->
  get_prime_number fuel n = Some p ->
  get_prime_number fuel' m = Some q ->
  p < q.
Proof.
  intros Hnm Hp Hq.
  apply get_prime_number_spec in Hp. apply get_prime_number_spec in Hq.
  destruct Hp as [_ Hp]. destruct Hq as [_ Hq].
  destruct (Z_lt_le_dec p q) as [ | Hle ]; trivial.
  pose proof (count_primes_mono q p Hle). lia.
Qed.

Lemma get_prime_number_increasing_witness :
  1 <= 3 < 5 /\ get_prime_number 20 3 = Some 5
  /\ get_prime_number 20 5 = Some 11 /\ 5 < 11.
Proof.
  assert (H3 : get_prime_number 20 3 = Some 5) by reflexivity.
  assert (H5 : get_prime_number 20 5 = Some 11) by reflexivity.
  split; [ lia | ]. split; [ exact H3 | ]. split; [ exact H5 | ].
  exact (get_prime_number_increasing 20 20 3 5 5 11 ltac:(lia) H3 H5).
Defined.

(** ** Key generation *)

Lemma count_primes_280 : count_primes 280 = 59.
Proof. vm_compute. reflexivity. Qed.

Lemma count_primes_863 : count_primes 863 = 150.
Proof. vm_compute. reflexivity. Qed.

(** Where the nth prime lies, from the number of primes up to two bounds. *)
Lemma get_prime_number_between (fuel : nat) (n p lo hi : Z) :
  1 <= n ->
  count_primes lo < n <= count_primes hi ->
  get_prime_number fuel n = Some p ->
  lo < p <= hi.
Proof.
  intros Hn Hc H. apply get_prime_number_spec in H. destruct H as [Hp Hn'].
  assert (H2 : 2 <= p) by (apply Z.prime_ge_2; now apply is_prime_iff).
  split.
  - destruct (Z_lt_le_dec lo p) as [ | Hle ]; trivial.
    pose proof (count_primes_mono p lo Hle). lia.
  - destruct (Z_lt_le_dec hi p) as [Hlt | ]; [ exfalso | lia ].
    pose proof (count_primes_succ (p - 1) ltac:(lia)) as Hs.
    replace (p - 1 + 1) with p in Hs by lia. rewrite Hp in Hs.
    pose proof (count_primes_mono hi (p - 1) ltac:(lia)). lia.
Qed.

(** What [generate_key_variables] returns on two draws of
    [random.randint(60, 150)]. *)
Lemma generate_key_variables_spec (fuel : nat) (r1 r2 p q : Z) :
  60 <= r1 <= 150 -> 60 <= r2 <= 150 ->
  generate_key_variables fuel r1 r2 = Some (p, q) ->
  Z.prime p /\ Z.prime q
  /\ 281 <= p <= 863 /\ 281 <= q <= 863
  /\ (p = q <-> r1 = r2).
Proof.
  intros H1 H2. unfold generate_key_variables.
  destruct (get_prime_number fuel r1) as [p' | ] eqn:Ep; [ | discriminate ].
  destruct (get_prime_number fuel r2) as [q' | ] eqn:Eq; [ | discriminate ].
  intros [= -> ->].
  pose proof (get_prime_number_between fuel r1 p 280 863 ltac:(lia)
                ltac:(rewrite count_primes_280, count_primes_863; lia) Ep).
  pose proof (get_prime_number_between fuel r2 q 280 863 ltac:(lia)
                ltac:(rewrite count_primes_280, count_primes_863; lia) Eq).
  pose proof (get_prime_number_spec fuel r1 p Ep) as [Hp Hcp].
  pose proof (get_prime_number_spec fuel r2 q Eq) as [Hq Hcq].
  split; [ now apply is_prime_iff | ]. split; [ now apply is_prime_iff | ].
  split; [ lia | ]. split; [ lia | ]. split.
  - intros ->. lia.
  - intros ->. congruence.
Qed.

(** X6: on any two draws from 60 to 150, and with room for 862 iterations
    of the search, [generate_key_variables] returns two primes from 281 to
    863; they are equal exactly when the two draws are, so the pair is not
    always one of distinct primes. *)
Theorem generate_key_variables_primes (fuel : nat) (r1 r2 : Z) :
  (862 <= fuel)%nat ->
  60 <= r1 <= 150 -> 60 <= r2 <= 150 ->
  exists p q,
    generate_key_variables fuel r1 r2 = Some (p, q)
    /\ Z.prime p /\ Z.prime q
    /\ 281 <= p <= 863 /\ 281 <= q <= 863
    /\ (p = q <-> r1 = r2).
Proof.
  intros Hf H1 H2.
  assert (Hfind : forall r, r <= 150 ->
            exists p, get_prime_number fuel r = Some p).
  { intros r Hr.
    destruct (get_prime_number_below r 863 ltac:(lia)
                ltac:(rewrite count_primes_863; lia)) as (p & Hp).
    exists p. unfold get_prime_number in *.
    now apply (get_prime_number_loop_fuel _ r fuel 2 1 p) in Hp. }
  destruct (Hfind r1 ltac:(lia)) as (p & Ep).
  destruct (Hfind r2 ltac:(lia)) as (q & Eq).
  assert (E : generate_key_variables fuel r1 r2 = Some (p, q))
    by (unfold generate_key_variables; now rewrite Ep, Eq).
  exists p, q. split; [ exact E | ].
  exact (generate_key_variables_spec fuel r1 r2 p q H1 H2 E).
Qed.

Lemma generate_key_variables_primes_witness :
  (862 <= 862)%nat /\ 60 <= 60 <= 150 /\ 60 <= 150 <= 150 /\
  exists p q, generate_key_variables 862 60 150 = Some (p, q)
              /\ 281 <= p <= 863 /\ 281 <= q <= 863.
Proof.
  assert (Hf : (862 <= 862)%nat) by lia.
  assert (H1 : 60 <= 60 <= 150) by lia.
  assert (H2 : 60 <= 150 <= 150) by lia.
  split; [ exact Hf | ]. split; [ exact H1 | ]. split; [ exact H2 | ].
  destruct (generate_key_variables_primes 862 60 150 Hf H1 H2)
    as (p & q & E & _ & _ & Hp & Hq & _).
  exists p, q. split; [ exact E | ]. split; assumption.
Defined.

(** ** The round trip on any message and on generated keys *)

(** The round trip of [main] on distinct primes, for any integer message:
    the message comes back reduced modulo [p * q]. *)
Lemma round_trip_any_message (party : communication_party.t) (p q m : Z) :
  Z.prime p -> Z.prime q -> p <> q ->
  6 < compute_totient p q ->
  round_trip party p q m = Ok (m mod (p * q)).
Proof.
  intros Hp Hq Hne Hbig.
  pose proof (Z.prime_ge_2 p Hp) as Hp2. pose proof (Z.prime_ge_2 q Hq) as Hq2.
  destruct (coprime_candidate_exists (compute_totient p q) Hbig
              (compute_totient_even p q Hp Hq Hne)) as (i & Hi & Hico).
  destruct (choose_e_cases p q)
    as [(e & Ee & He & Hg & _) | (_ & Hnone)];
    [ | exfalso; exact (Hnone i Hi Hico) ].
  destruct (modular_inverse_coprime e (compute_totient p q) Hg ltac:(lia))
    as (d & Ed & Hd & Hed).
  unfold round_trip. rewrite Ee. cbn [Py.bind].
  unfold choose_d. rewrite Ed. cbn. unfold Py.pow.
  destruct (Z.eqb_spec (p * q) 0) as [ | _ ]; [ nia | ].
  destruct (Z.leb_spec 0 e) as [ _ | ]; [ | lia ]. cbn.
  destruct (Z.eqb_spec (p * q) 0) as [ | _ ]; [ nia | ].
  destruct (Z.leb_spec 0 d) as [ _ | ]; [ | lia ].
  f_equal. rewrite Z.mod_pow_l, <- Z.pow_mul_r by lia.
  apply pow_mod_totient; trivial; lia.
Qed.

(** X7: no check keeps the message below [n = p * q].  On distinct primes
    with a totient above 6 the round trip of [main] returns every integer
    message reduced modulo [n], so a message outside [0 <= m < n] comes back
    as another number. *)
Theorem round_trip_wraps (party : communication_party.t) (p q m : Z) :
  Z.prime p -> Z.prime q -> p <> q ->
  6 < compute_totient p q ->
  round_trip party p q m = Ok (m mod (p * q))
  /\ (~ 0 <= m < p * q -> round_trip party p q m <> Ok m).
Proof.
  intros Hp Hq Hne Hbig.
  pose proof (Z.prime_ge_2 p Hp) as Hp2. pose proof (Z.prime_ge_2 q Hq) as Hq2.
  rewrite round_trip_any_message by trivial. split; [ reflexivity | ].
  intros Hout [= E].
  pose proof (Z.mod_pos_bound m (p * q) ltac:(nia)). lia.
Qed.

Lemma round_trip_wraps_witness :
  Z.prime 3 /\ Z.prime 5 /\ 3 <> 5 /\ 6 < compute_totient 3 5
  /\ round_trip (communication_party.Build 3 5) 3 5 22 = Ok 7.
Proof.
  assert (H3 : Z.prime 3) by (apply is_prime_iff; reflexivity).
  assert (H5 : Z.prime 5) by (apply is_prime_iff; reflexivity).
  assert (Hne : 3 <> 5) by lia.
  assert (Hbig : 6 < compute_totient 3 5) by reflexivity.
  split; [ exact H3 | ]. split; [ exact H5 | ]. split; [ exact Hne | ].
  split; [ exact Hbig | ].
  exact (proj1 (round_trip_wraps (communication_party.Build 3 5) 3 5 22
                  H3 H5 Hne Hbig)).
Defined.

(** X8: key generation composed with the round trip.  When the two draws
    of [generate_key_variables] differ, every message [m] with
    [0 <= m < p * q] is recovered under the keys chosen for the generated
    primes. *)
Theorem round_trip_generated_keys
  (party : communication_party.t) (fuel : nat) (r1 r2 p q m : Z) :
  60 <= r1 <= 150 -> 60 <= r2 <= 150 -> r1 <> r2 ->
  generate_key_variables fuel r1 r2 = Some (p, q) ->
  0 <= m < p * q ->
  round_trip party p q m = Ok m.
Proof.
  intros H1 H2 Hne E Hm.
  destruct (generate_key_variables_spec fuel r1 r2 p q H1 H2 E)
    as (Hp & Hq & Hpb & Hqb & Heq).
  rewrite round_trip_any_message; trivial.
  - f_equal. now apply Z.mod_small.
  - intros Hpq. apply Hne. now apply Heq.
  - unfold compute_totient. nia.
Qed.

Lemma round_trip_generated_keys_witness :
  60 <= 60 <= 150 /\ 60 <= 61 <= 150 /\ 60 <> 61
  /\ generate_key_variables 300 60 61 = Some (281, 283)
  /\ 0 <= 79522 < 281 * 283
  /\ round_trip (communication_party.Build 281 283) 281 283 79522 = Ok 79522.
Proof.
  assert (H1 : 60 <= 60 <= 150) by lia.
  assert (H2 : 60 <= 61 <= 150) by lia.
  assert (Hne : 60 <> 61) by lia.
  assert (E : generate_key_variables 300 60 61 = Some (281, 283))
    by (vm_compute; reflexivity).
  assert (Hm : 0 <= 79522 < 281 * 283) by lia.
  split; [ exact H1 | ]. split; [ exact H2 | ]. split; [ exact Hne | ].
  split; [ exact E | ]. split; [ exact Hm | ].
  exact (round_trip_generated_keys (communication_party.Build 281 283)
           300 60 61 281 283 79522 H1 H2 Hne E Hm).
Defined.

(** A power of a multiple of [p], with an exponent of at least 2, is zero
    modulo [p * p]. *)
Lemma pow_multiple_mod_square (p m e : Z) :
  p <> 0 -> (p | m) -> 2 <= e -> m ^ e mod (p * p) = 0.
Proof.
  intros Hp [k ->] He. apply Z.mod_divide; [ nia | ].
  replace e with (2 + (e - 2)) by lia.
  rewrite Z.pow_add_r by lia.
  apply Z.divide_mul_l. exists (k * k). rewrite Z.pow_2_r. lia.
Qed.

(** X9: with the same prime for [p] and [q], as two equal draws give, the
    round trip of [main] recovers no message that is a non-zero multiple of
    [p] below [p * p]: the cipher of such a message is zero. *)
Theorem round_trip_equal_primes (party : communication_party.t) (p m : Z) :
  Z.prime p ->
  0 < m < p * p -> (p | m) ->
  round_trip party p p m <> Ok m.
Proof.
  intros Hp Hm Hdiv. pose proof (Z.prime_ge_2 p Hp) as Hp2.
  assert (Hmp : 2 <= m).
  { destruct Hdiv as [k ->].
    assert (1 <= k) by (destruct (Z_lt_le_dec k 1); [ nia | lia ]). nia. }
  unfold round_trip.
  destruct (choose_e_cases p p)
    as [(e & -> & He & _) | (-> & _)]; cbn [Py.bind].
  - destruct (choose_d e p p) as [d | err]; cbn [Py.bind]; [ | discriminate ].
    cbn. unfold Py.pow.
    destruct (Z.eqb_spec (p * p) 0) as [ | _ ]; [ nia | ].
    destruct (Z.leb_spec 0 e) as [ _ | ]; [ | lia ]. cbn.
    destruct (Z.eqb_spec (p * p) 0) as [ | _ ]; [ nia | ].
    rewrite (pow_multiple_mod_square p m e) by first [ assumption | lia ].
    destruct (Z.leb_spec 0 d) as [Hd | Hd].
    + intros [= E]. destruct (Z.eq_dec d 0) as [-> | Hd0].
      * rewrite Z.pow_0_r, Z.mod_1_l in E by nia. lia.
      * rewrite Z.pow_0_l, Z.mod_0_l in E by nia. lia.
    + rewrite Z.gcd_0_l.
      destruct (Z.eqb_spec (Z.abs (p * p)) 1); [ nia | discriminate ].
  - destruct (compute_totient p p =? 0); discriminate.
Qed.

Lemma round_trip_equal_primes_witness :
  Z.prime 281 /\ 0 < 281 < 281 * 281 /\ (281 | 281)
  /\ round_trip (communication_party.Build 281 281) 281 281 281 <> Ok 281.
Proof.
  assert (Hp : Z.prime 281) by (apply is_prime_iff; reflexivity).
  assert (Hm : 0 < 281 < 281 * 281) by lia.
  assert (Hd : (281 | 281)) by (exists 1; reflexivity).
  split; [ exact Hp | ]. split; [ exact Hm | ]. split; [ exact Hd | ].
  exact (round_trip_equal_primes (communication_party.Build 281 281)
           281 281 Hp Hm Hd).
Defined.

(** ** When the scan of [choose_e] finds nothing *)

(** An odd totient is coprime to 2. *)
Lemma gcd_2_odd (n : Z) : n mod 2 <> 0 -> Z.gcd 2 n = 1.
Proof.
  intros Hodd. pose proof (Z.div_mod n 2 ltac:(lia)) as Hd.
  pose proof (Z.mod_pos_bound n 2 ltac:(lia)) as Hb.
  apply Z.bezout_1_gcd. exists (- (n / 2)), 1. lia.
Qed.

(** A totient of 5 or of at least 7 has a coprime candidate in the range
    of the scan. *)
Lemma coprime_candidate_exists_any (my_totient : Z) :
  4 < my_totient -> my_totient <> 6 ->
  exists i, 2 <= i < my_totient - 1 /\ Z.gcd i my_totient = 1.
Proof.
  intros Hbig H6.
  destruct (Z.eq_dec (my_totient mod 2) 0) as [Heven | Hodd].
  - apply coprime_candidate_exists; trivial.
    pose proof (Z.div_mod my_totient 2 ltac:(lia)). lia.
  - exists 2. split; [ lia | now apply gcd_2_odd ].
Qed.

(** X10: [choose_e] never raises, and it falls through to [None] exactly
    when the totient [(p - 1) * (q - 1)] is at most 4 or is 6; on every
    other pair of integers it returns an exponent. *)
Theorem choose_e_none_iff (p q : Z) :
  (exists r, choose_e p q = Ok r)
  /\ (choose_e p q = Ok None
      <-> (p - 1) * (q - 1) <= 4 \/ (p - 1) * (q - 1) = 6).
Proof.
  change ((p - 1) * (q - 1)) with (compute_totient p q).
  split.
  { destruct (choose_e_cases p q) as [(e & E & _) | (E & _)];
      rewrite E; eauto. }
  split.
  - intros E.
    destruct (Z_le_gt_dec (compute_totient p q) 4) as [ | Hbig ];
      [ now left | right ].
    destruct (Z.eq_dec (compute_totient p q) 6) as [ | H6 ]; trivial.
    exfalso.
    destruct (coprime_candidate_exists_any (compute_totient p q)
                ltac:(lia) H6) as (i & Hi & Hco).
    destruct (choose_e_cases p q) as [(e & E' & _) | (_ & Hnone)].
    + congruence.
    + exact (Hnone i Hi Hco).
  - unfold choose_e. intros [Hsmall | ->]; [ | reflexivity ].
    destruct (Z.eq_dec (compute_totient p q) 4) as [-> | ];
      [ reflexivity | ].
    now rewrite range_nil by lia.
Qed.

(** X11: the key pair that [choose_e] and [choose_d] give.  For a totient
    above 4 and other than 6, [choose_e] returns [e] with [1 < e] below the
    totient minus 1 and coprime to the totient, and [choose_d] returns [d]
    with [0 < d] below the totient and [e * d] equal to 1 modulo the
    totient. *)
Theorem choose_e_choose_d_key_pair (p q : Z) :
  4 < (p - 1) * (q - 1) -> (p - 1) * (q - 1) <> 6 ->
  exists e d,
    choose_e p q = Ok (Some e)
    /\ choose_d e p q = Ok d
    /\ 1 < e < (p - 1) * (q - 1) - 1
    /\ Z.gcd e ((p - 1) * (q - 1)) = 1
    /\ 0 < d < (p - 1) * (q - 1)
    /\ (e * d) mod ((p - 1) * (q - 1)) = 1.
Proof.
  change ((p - 1) * (q - 1)) with (compute_totient p q).
  intros Hbig H6.
  destruct (coprime_candidate_exists_any _ Hbig H6) as (i & Hi & Hco).
  destruct (choose_e_cases p q)
    as [(e & Ee & He & Hg & _) | (_ & Hnone)];
    [ | exfalso; exact (Hnone i Hi Hco) ].
  destruct (modular_inverse_coprime e (compute_totient p q) Hg ltac:(lia))
    as (d & Ed & Hd & Hed).
  exists e, d. repeat split; trivial; try lia.
  destruct (Z.eq_dec d 0) as [-> | ]; [ | lia ].
  rewrite Z.mul_0_r, Z.mod_0_l in Hed by lia. discriminate.
Qed.

Lemma choose_e_choose_d_key_pair_witness :
  4 < (11 - 1) * (17 - 1) /\ (11 - 1) * (17 - 1) <> 6 /\
  exists e d, choose_e 11 17 = Ok (Some e) /\ choose_d e 11 17 = Ok d
              /\ (e * d) mod ((11 - 1) * (17 - 1)) = 1.
Proof.
  assert (Hbig : 4 < (11 - 1) * (17 - 1)) by reflexivity.
  assert (H6 : (11 - 1) * (17 - 1) <> 6) by (vm_compute; discriminate).
  split; [ exact Hbig | ]. split; [ exact H6 | ].
  destruct (choose_e_choose_d_key_pair 11 17 Hbig H6)
    as (e & d & Ee & Ed & _ & _ & _ & Hed).
  exists e, d. split; [ exact Ee | ]. split; [ exact Ed | exact Hed ].
Defined.

(** ** More on the modular inverse *)

(** X12: the inverse of the inverse.  For coprime [a] and [n] with [1 < n],
    calling [modular_inverse] on what [modular_inverse a n] returned gives
    [a] back, reduced modulo [n]. *)
Theorem modular_inverse_involutive (a n : Z) :
  Z.gcd a n = 1 -> 1 < n ->
  exists d, modular_inverse a n = Ok d
            /\ modular_inverse d n = Ok (a mod n).
Proof.
  intros Hco Hn.
  destruct (modular_inverse_coprime a n Hco Hn) as (d & Ed & Hd & Had).
  exists d. split; [ exact Ed | ].
  assert (Hdco : Z.gcd d n = 1).
  { apply mod_1_coprime with a. now rewrite Z.mul_comm. }
  destruct (modular_inverse_coprime d n Hdco Hn) as (c & Ec & Hc & Hdc).
  rewrite Ec. f_equal.
  rewrite <- (Z.mod_small c n) by lia.
  rewrite <- (Z.mul_1_r c), <- Had, Z.mul_mod_idemp_r by lia.
  replace (c * (a * d)) with (d * c * a) by lia.
  rewrite <- Z.mul_mod_idemp_l, Hdc by lia. now rewrite Z.mul_1_l.
Qed.

Lemma modular_inverse_involutive_witness :
  Z.gcd 13 10 = 1 /\ 1 < 10 /\
  exists d, modular_inverse 13 10 = Ok d /\ modular_inverse d 10 = Ok 3.
Proof.
  split; [ reflexivity | ]. split; [ lia | ].
  exact (modular_inverse_involutive 13 10 eq_refl ltac:(lia)).
Defined.

(** X13: with a negative modulus [n < -1] and [a] coprime to it,
    [modular_inverse a n] returns a [d] with [n < d <= 0] whose product with
    [a] is -1 modulo [n], not 1: the first component of [extended_gcd] is
    then -1, and the coefficient is taken as it is. *)
Theorem modular_inverse_negative_modulus (a n : Z) :
  Z.gcd a n = 1 -> n < -1 ->
  exists d, modular_inverse a n = Ok d
            /\ n < d <= 0
            /\ (a * d) mod n = -1
            /\ (a * d) mod n <> 1.
Proof.
  intros Hco Hn.
  destruct (modular_inverse_cases a n)
    as (g & x & y & E & Hg & _ & _ & _ & Hnz).
  destruct (extended_gcd_spec a n)
    as (g' & x' & y' & E' & _ & _ & _ & _ & Hneg).
  rewrite E in E'. injection E' as <- <- <-.
  rewrite (Hneg ltac:(lia)), Hco in Hg.
  exists (x mod n). split; [ apply Hnz; lia | ].
  pose proof (Z.mod_neg_bound x n ltac:(lia)) as Hb.
  split; [ lia | ].
  assert (Hm : (a * (x mod n)) mod n = -1).
  { rewrite Z.mul_mod_idemp_r by lia.
    replace (a * x) with (-1 + (- y) * n) by lia.
    rewrite Z.mod_add by lia.
    symmetry. apply (Z.mod_unique_neg (-1) n 0 (-1)); lia. }
  rewrite Hm. split; [ reflexivity | discriminate ].
Qed.

Lemma modular_inverse_negative_modulus_witness :
  Z.gcd 3 (-10) = 1 /\ -10 < -1 /\
  exists d, modular_inverse 3 (-10) = Ok d /\ (3 * d) mod (-10) = -1.
Proof.
  split; [ reflexivity | ]. split; [ lia | ].
  destruct (modular_inverse_negative_modulus 3 (-10) eq_refl ltac:(lia))
    as (d & Ed & _ & Hm & _).
  exists d. split; [ exact Ed | exact Hm ].
Defined.

(** ** The two Euclidean algorithms agree *)

(** X1: whenever [recursive_euclidean a b] returns, it returns the first
    component of [extended_gcd a b], and that number is the gcd of [a] and
    [b] up to its sign. *)
Theorem recursive_euclidean_agrees (depth : nat) (a b g : Z) :
  recursive_euclidean depth a b = Some g ->
  Z.abs g = Z.gcd a b
  /\ exists x y, extended_gcd a b = Ok (g, x, y).
Proof.
  intros H. apply recursive_euclidean_spec in H.
  destruct H as (Habs & Hz & Hp & Hn). split; [ exact Habs | ].
  destruct (extended_gcd_spec a b)
    as (g' & x & y & E & _ & Habs' & Hz' & Hp' & Hn').
  exists x, y. rewrite E. do 3 f_equal.
  destruct (Z.lt_total b 0) as [Hb | [Hb | Hb]].
  - specialize (Hn Hb). specialize (Hn' Hb). lia.
  - specialize (Hz Hb). specialize (Hz' Hb). congruence.
  - specialize (Hp Hb). specialize (Hp' Hb). lia.
Qed.

Lemma recursive_euclidean_agrees_witness :
  recursive_euclidean 10 4 (-6) = Some (-2)
  /\ exists x y, extended_gcd 4 (-6) = Ok (-2, x, y).
Proof.
  assert (H : recursive_euclidean 10 4 (-6) = Some (-2)) by reflexivity.
  split; [ exact H | ].
  exact (proj2 (recursive_euclidean_agrees 10 4 (-6) (-2) H)).
Defined.

(** X2: the recursion of [recursive_euclidean] is shallow: with room for
    twice the binary logarithm of [|b|] plus two frames it returns, and
    what it returns is the gcd of [a] and [b] up to its sign. *)
Theorem recursive_euclidean_returns (depth : nat) (a b : Z) :
  2 * Z.log2 (Z.abs b) + 2 <= Z.of_nat depth ->
  exists g, recursive_euclidean depth a b = Some g
            /\ Z.abs g = Z.gcd a b.
Proof.
  intros Hd.
  destruct (recursive_euclidean_depth depth a b Hd) as (g & E).
  exists g. split; [ exact E | ].
  now apply recursive_euclidean_spec in E.
Qed.

Lemma recursive_euclidean_returns_witness :
  2 * Z.log2 (Z.abs 34) + 2 <= Z.of_nat 12 /\
  exists g, recursive_euclidean 12 55 34 = Some g /\ Z.abs g = Z.gcd 55 34.
Proof.
  assert (H : 2 * Z.log2 (Z.abs 34) + 2 <= Z.of_nat 12)
    by (vm_compute; discriminate).
  split; [ exact H | ].
  exact (recursive_euclidean_returns 12 55 34 H).
Defined.

(** ** Any valid key pair *)

(** X14: the transforms with any key pair, not only the chosen one.  For
    distinct primes [p] and [q] and non-negative [e] and [d] whose product
    is 1 modulo the totient, a message [m] with [0 <= m < p * q] is
    recovered in both orders: decrypting its encryption, and encrypting its
    decryption, give [m] back; the cipher lies in the same range. *)
Theorem transforms_inverse_any_key_pair
  (party : communication_party.t) (p q e d m : Z) :
  Z.prime p -> Z.prime q -> p <> q ->
  0 <= e -> 0 <= d -> (e * d) mod compute_totient p q = 1 ->
  0 <= m < p * q ->
  exists cipher plain,
    fst (communication_party.encrypt m e (p * q) party) = Ok cipher
    /\ 0 <= cipher < p * q
    /\ fst (communication_party.decrypt cipher d (p * q) party) = Ok m
    /\ fst (communication_party.decrypt m d (p * q) party) = Ok plain
    /\ fst (communication_party.encrypt plain e (p * q) party) = Ok m.
Proof.
  intros Hp Hq Hne He Hd Hed Hm.
  destruct (decrypt_encrypt party p q e d m) as (cipher & Ec & Em); trivial.
  rewrite Z.mul_comm in Hed.
  destruct (decrypt_encrypt party p q d e m) as (plain & Ep & Em'); trivial.
  assert (Hrange : 0 <= cipher < p * q).
  { cbn in Ec. unfold Py.pow in Ec.
    destruct (p * q =? 0); [ discriminate | ].
    destruct (Z.leb_spec 0 e); [ | lia ].
    injection Ec as <-. apply Z.mod_pos_bound. lia. }
  exists cipher, plain. repeat split; trivial; lia.
Qed.

Lemma transforms_inverse_any_key_pair_witness :
  Z.prime 11 /\ Z.prime 17 /\ 11 <> 17 /\ 0 <= 7 /\ 0 <= 23
  /\ (7 * 23) mod compute_totient 11 17 = 1 /\ 0 <= 42 < 11 * 17
  /\ exists cipher,
       fst (communication_party.encrypt 42 7 (11 * 17)
              (communication_party.Build 11 17)) = Ok cipher
       /\ fst (communication_party.decrypt cipher 23 (11 * 17)
                 (communication_party.Build 11 17)) = Ok 42.
Proof.
  assert (H11 : Z.prime 11) by (apply is_prime_iff; reflexivity).
  assert (H17 : Z.prime 17) by (apply is_prime_iff; reflexivity).
  assert (Hne : 11 <> 17) by lia.
  assert (He : 0 <= 7) by lia.
  assert (Hd : 0 <= 23) by lia.
  assert (Hed : (7 * 23) mod compute_totient 11 17 = 1) by reflexivity.
  assert (Hm : 0 <= 42 < 11 * 17) by lia.
  split; [ exact H11 | ]. split; [ exact H17 | ]. split; [ exact Hne | ].
  split; [ exact He | ]. split; [ exact Hd | ]. split; [ exact Hed | ].
  split; [ exact Hm | ].
  destruct (transforms_inverse_any_key_pair
              (communication_party.Build 11 17) 11 17 7 23 42
              H11 H17 Hne He Hd Hed Hm) as (cipher & plain & Ec & _ & Em & _).
  exists cipher. split; [ exact Ec | exact Em ].
Defined.
